(** * pipe_operator.h: the pipe operator and its error-propagating variant

    A shallow embedding of [src/pipe_operator/pipe_operator.h].

    - Callables run in a state-and-fault monad: the state is whatever the
      callables observe or change (the console, the random device), a fault
      stands for undefined behaviour (reading the value of an [expected]
      that holds an error, signed overflow).
    - [v2.pipe] is the generic operator [t | f = f(t)].
    - [v3.pipe] is the operator on [std::expected]: [ex ? f( *ex ) : ex].
    - [v3.Payload], [v3.OpErrorType], [v3.Payload_Proc_1..3] and
      [v3.Payload_PipeTest] are the example pipeline of namespace [v3]. *)

From Stdlib Require Import String Ascii ZArith Lia Bool List.
From Stdlib Require Import Decimal DecimalString.
Import ListNotations.

Set Implicit Arguments.

(** ** Effects *)

(** What running a piece of code gives: a value, or a fault (undefined
    behaviour). *)
Inductive outcome (A : Type) : Type :=
| Ret (a : A)
| Fault.
Arguments Ret {A} a.
Arguments Fault {A}.

(** A computation over a state [W]. *)
Definition M (W A : Type) : Type := W -> outcome (A * W).

Definition ret {W A : Type} (a : A) : M W A := fun w => Ret (a, w).

Definition fault {W A : Type} : M W A := fun _ => Fault.

Definition bind {W A B : Type} (c : M W A) (k : A -> M W B) : M W B :=
  fun w =>
    match c w with
    | Ret (a, w') => k a w'
    | Fault => Fault
    end.

Declare Scope eff_scope.
Delimit Scope eff_scope with eff.
Notation "x <- c ;; k" := (bind c (fun x => k))
  (at level 61, c at next level, right associativity) : eff_scope.
Notation "c ;; k" := (bind c (fun _ => k))
  (at level 61, right associativity) : eff_scope.
Local Open Scope eff_scope.

(** The value a run returns, without the final state. *)
Definition returned {A W : Type} (o : outcome (A * W)) : outcome A :=
  match o with
  | Ret (a, _) => Ret a
  | Fault => Fault
  end.

(** ** The console and the random device *)

Section Console.
Local Open Scope string_scope.
Local Open Scope Z_scope.

(** What the functions of the file read and write: the text sent to
    [std::cout], and the random device, given by the values its
    successive calls return. *)
Record World : Type := mkWorld {
  cout : string;
  random_device : nat -> Z;
  drawn : nat
}.

Definition endl : string := String "010"%char EmptyString.

(** [std::cout << s]. *)
Definition print (s : string) : M World unit :=
  fun w => Ret (tt, mkWorld (cout w ++ s) (random_device w) (drawn w)).

(** [std::random_device{}()]: the next 32-bit value of the device. *)
Definition random_device_call : M World Z :=
  fun w =>
    Ret ((random_device w (drawn w) mod 2 ^ 32)%Z,
         mkWorld (cout w) (random_device w) (S (drawn w))).

(** *** A basic example *)

Definition StringProc_1 (s : string) : M World string :=
  let s := s ++ " proc by 1," in
  print ("I'm in StringProc_1, s = " ++ s ++ endl) ;;
  ret s.

Definition StringProc_2 (s : string) : M World string :=
  let s := s ++ " proc by 2," in
  print ("I'm in StringProc_2, s = " ++ s ++ endl) ;;
  ret s.

Definition StringProc_3 (s : string) : M World string :=
  let s := s ++ " proc by 3," in
  print ("I'm in StringProc_3, s = " ++ s ++ endl) ;;
  ret s.

End Console.

(** ** Namespace v1: the operator on strings *)

Module v1.

Definition Function : Type := string -> M World string.

(** [operator | (std::string&& s, Function f)]: [return f(std::move(s));] *)
Definition pipe (s : string) (f : Function) : M World string := f s.

Definition SimplePipeTest : M World unit :=
  r1 <- pipe "Start string " StringProc_1 ;;
  r2 <- pipe r1 StringProc_2 ;;
  r3 <- pipe r2 StringProc_3 ;;
  print r3.

End v1.

(** ** Namespace v2: the generic operator *)

Module v2.

Section Operator.
Context {W : Type}.

(** [operator | (T&& t, Function&& f)]: [std::invoke(f, t)]. *)
Definition pipe {A B : Type} (t : A) (f : A -> M W B) : M W B := f t.

(** [t | f1 | f2 | ... | fn], the operator being left associative. *)
Fixpoint chain {A : Type} (t : A) (fs : list (A -> M W A)) : M W A :=
  match fs with
  | [] => ret t
  | f :: fs' => r <- pipe t f ;; chain r fs'
  end.

End Operator.

(** The step given as a lambda in [SimplePipeTest] and as the function
    object [StringProc_funobj] in [SimplePipeTest_2]: the body of
    [StringProc_3]. *)
Definition StringProc_funobj (s : string) : M World string :=
  let s := (s ++ " proc by 3,")%string in
  print ("I'm in StringProc_3, s = " ++ s ++ endl)%string ;;
  ret s.

Definition SimplePipeTest : M World unit :=
  r <- chain "Start string "%string
             [StringProc_1; StringProc_2; StringProc_funobj] ;;
  print r.

(** The same chain with [StringProc_funobj{}] as its last callable. *)
Definition SimplePipeTest_2 : M World unit :=
  r <- chain "Start string "%string
             [StringProc_1; StringProc_2; StringProc_funobj] ;;
  print r.

End v2.

(** ** Namespace v3: handling errors *)

Module v3.

(** [std::expected<T, E>]: a value of [T] or an error of [E]. *)
Inductive expected (T E : Type) : Type :=
| Value (t : T)
| Unexpected (e : E).
Arguments Value {T E} t.
Arguments Unexpected {T E} e.

Section Operator.
Context {T E W : Type}.

(** A callable the operator accepts: invocable with a [T], returning an
    expected. The source lets the returned expected differ from the
    operand's; every use in the file keeps it the same. *)
Definition Function : Type := T -> M W (expected T E).

(** [explicit operator bool]. *)
Definition has_value (ex : expected T E) : bool :=
  match ex with
  | Value _ => true
  | Unexpected _ => false
  end.

(** [operator*]: undefined when no value is held. *)
Definition deref (ex : expected T E) : M W T :=
  match ex with
  | Value t => ret t
  | Unexpected _ => fault
  end.

(** [operator | (std::expected<T, E>&& ex, Function&& f)]:
    [return ex ? std::invoke(f, *ex) : ex;] *)
Definition pipe (ex : expected T E) (f : Function) : M W (expected T E) :=
  if has_value ex then t <- deref ex ;; f t else ret ex.

(** [ex | f1 | f2 | ... | fn]. *)
Fixpoint chain (ex : expected T E) (fs : list Function)
  : M W (expected T E) :=
  match fs with
  | [] => ret ex
  | f :: fs' => r <- pipe ex f ;; chain r fs'
  end.

(** What one application of the operator observes of its callable: the
    position of the callable in the chain, the argument it was invoked
    with and what the invocation gave. *)
Record call : Type := Call {
  call_index : nat;
  call_arg : T;
  call_result : outcome (expected T E * W)
}.

Definition invocation (i : nat) (ex : expected T E) (f : Function) (w : W)
  : list call :=
  match ex with
  | Value t => [Call i t (f t w)]
  | Unexpected _ => []
  end.

(** The invocations made while [ex | f_i | f_(i+1) | ...] is evaluated. *)
Fixpoint calls_from (i : nat) (ex : expected T E) (fs : list Function)
  (w : W) : list call :=
  match fs with
  | [] => []
  | f :: fs' =>
      invocation i ex f w ++
      match pipe ex f w with
      | Ret (r, w') => calls_from (S i) r fs' w'
      | Fault => []
      end
  end.

Definition calls := calls_from 0.

(** Whether an invocation returned a value. *)
Definition succeeded (c : call) : bool :=
  match call_result c with
  | Ret (Value _, _) => true
  | _ => false
  end.

(** What an invocation returned, without the state it left. *)
Definition call_returned (c : call) : outcome (expected T E) :=
  returned (call_result c).

(** A callable whose parameter is an expected (as [Payload_Proc_1] is)
    is invoked by the operator with a [T]: the argument it receives is
    the expected converted from that [T], which holds it as its value. *)
Definition invoke_with (g : expected T E -> M W (expected T E)) : Function :=
  fun t => g (Value t).

(** Folding the callables over the payload by hand, with no test between
    them: each one is given the value of what the one before returned. *)
Fixpoint fold_payload (r : expected T E) (fs : list Function)
  : M W (expected T E) :=
  match fs with
  | [] => ret r
  | f :: fs' => t <- deref r ;; r' <- f t ;; fold_payload r' fs'
  end.

(** *** The evaluation as a state machine

    The machine as the specification words it: [Running i r] moves to
    [Running (i+1) r'] when [r] holds a value and [i] is the index of a
    step, to [Done r] when [r] holds an error and [i] is the index of a
    step, and [Running (length steps) r] moves to [Done r]. [Done] is
    terminal. Each state carries the state of the world next to the
    result. *)
Inductive state : Type :=
| Running (i : nat) (r : expected T E) (w : W)
| Done (r : expected T E) (w : W).

(** One transition; [Ret None] when the state has none. *)
Definition transition (steps : list Function) (st : state)
  : outcome (option state) :=
  match st with
  | Done _ _ => Ret None
  | Running i r w =>
      match nth_error steps i with
      | Some f =>
          match r with
          | Value t =>
              match f t w with
              | Ret (r', w') => Ret (Some (Running (S i) r' w'))
              | Fault => Fault
              end
          | Unexpected _ => Ret (Some (Done r w))
          end
      | None =>
          if Nat.eqb i (List.length steps) then Ret (Some (Done r w))
          else Ret None
      end
  end.

(** At most [n] transitions from [st]; stops where there is none. *)
Fixpoint run (steps : list Function) (n : nat) (st : state)
  : outcome state :=
  match n with
  | O => Ret st
  | S n' =>
      match transition steps st with
      | Ret (Some st') => run steps n' st'
      | Ret None => Ret st
      | Fault => Fault
      end
  end.

(** A callable that records the argument it receives before it runs
    [g]: what a test uses to see how its step was invoked. *)
Definition observe (g : expected T E -> M W (expected T E))
  : expected T E -> M (W * list (expected T E)) (expected T E) :=
  fun s ws =>
    match g s (fst ws) with
    | Ret (r, w') => Ret (r, (w', snd ws ++ [s]))
    | Fault => Fault
    end.

Definition is_done (st : state) : bool :=
  match st with
  | Done _ _ => true
  | Running _ _ _ => false
  end.

(** How far a state is along the chain. *)
Definition rank (steps : list Function) (st : state) : nat :=
  match st with
  | Running i _ _ => i
  | Done _ _ => S (List.length steps)
  end.

End Operator.

(** *** The example: a payload, three processing steps *)

Local Open Scope string_scope.
Local Open Scope Z_scope.

(** [struct Payload { std::string fStr{}; int fVal{}; };] *)
Record Payload : Type := mkPayload {
  fStr : string;
  fVal : Z
}.

(** [enum class OpErrorType : unsigned char]: every value of the underlying
    type is a value of the enumeration, three of them are named. *)
Definition OpErrorType : Type := Z.
Definition kInvalidInput : OpErrorType := 0.
Definition kOverflow : OpErrorType := 1.
Definition kUnderflow : OpErrorType := 2.

Definition PayloadOrError : Type := expected Payload OpErrorType.

Definition INT_MIN : Z := (- 2 ^ 31)%Z.
Definition INT_MAX : Z := (2 ^ 31 - 1)%Z.

(** Addition on [int]: undefined when the sum is not representable. *)
Definition int_add {W : Type} (a b : Z) : M W Z :=
  let r := (a + b)%Z in
  if ((INT_MIN <=? r) && (r <=? INT_MAX))%Z then ret r else fault.

(** [std::cout << n] for an [int]. *)
Definition show_int (n : Z) : string := NilZero.string_of_int (Z.to_int n).

(** [operator->]: undefined when no value is held. *)
Definition arrow {W : Type} (s : PayloadOrError) : M W Payload := deref s.

Section Example.
(** [std::mt19937]: [mt19937 seed i] is the [i]-th value an engine
    constructed from [seed] returns. *)
Variable mt19937 : Z -> nat -> Z.

(** [Payload_Proc_1] after its test of [s]. *)
Definition Payload_Proc_1_body (s : PayloadOrError) : M World PayloadOrError :=
  p <- arrow s ;;
  n <- int_add (fVal p) 1 ;;
  let p := mkPayload (fStr p ++ " proc by 1,") n in
  print ("I'm in Payload_Proc_1, s = " ++ fStr p ++ endl) ;;
  ret (Value p).

Definition Payload_Proc_1 (s : PayloadOrError) : M World PayloadOrError :=
  if negb (has_value s) then ret s else Payload_Proc_1_body s.

(** [Payload_Proc_2] after its test of [s]. The engine is constructed
    from one value of the random device; its first value decides between
    returning [s] and an error, its second value which error. *)
Definition Payload_Proc_2_body (s : PayloadOrError) : M World PayloadOrError :=
  p <- arrow s ;;
  n <- int_add (fVal p) 1 ;;
  let p := mkPayload (fStr p ++ " proc by 2,") n in
  print ("I'm in Payload_Proc_2, s = " ++ fStr p ++ endl) ;;
  seed <- random_device_call ;;
  let rand_gen := mt19937 seed in
  if negb (rand_gen 0%nat mod 2 =? 0)%Z then ret (Value p)
  else
    ret (Unexpected
           (if negb (rand_gen 1%nat mod 2 =? 0)%Z then kOverflow
            else kUnderflow)).

Definition Payload_Proc_2 (s : PayloadOrError) : M World PayloadOrError :=
  if negb (has_value s) then ret s else Payload_Proc_2_body s.

(** [Payload_Proc_3] after its test of [s]. *)
Definition Payload_Proc_3_body (s : PayloadOrError) : M World PayloadOrError :=
  p <- arrow s ;;
  n <- int_add (fVal p) 3 ;;
  let p := mkPayload (fStr p ++ " proc by 3,") n in
  print ("I'm in Payload_Proc_3, s = " ++ fStr p ++ endl) ;;
  ret (Value p).

Definition Payload_Proc_3 (s : PayloadOrError) : M World PayloadOrError :=
  if negb (has_value s) then ret s else Payload_Proc_3_body s.

(** The labels of the [switch] of [Payload_PipeTest]. *)
Inductive switch_label : Type :=
| case_kInvalidInput
| case_kOverflow
| case_kUnderflow
| case_default.

Definition switch (e : OpErrorType) : switch_label :=
  if (e =? kInvalidInput)%Z then case_kInvalidInput
  else if (e =? kOverflow)%Z then case_kOverflow
  else if (e =? kUnderflow)%Z then case_kUnderflow
  else case_default.

Definition case_text (l : switch_label) : string :=
  match l with
  | case_kInvalidInput => "Error: OpErrorType::kInvalidInput" ++ endl
  | case_kOverflow => "Error: OpErrorType::kOverflow" ++ endl
  | case_kUnderflow => "Error: OpErrorType::kUnderflow" ++ endl
  | case_default => "That's really an unexpected error ..." ++ endl
  end.

Definition start : PayloadOrError := Value (mkPayload "Start string " 42).

Definition test_steps : list (@Function Payload OpErrorType World) :=
  [invoke_with Payload_Proc_1; invoke_with Payload_Proc_2;
   invoke_with Payload_Proc_3].

(** [PayloadOrError{ Payload { "Start string ", 42 } } |
     Payload_Proc_1 | Payload_Proc_2 | Payload_Proc_3] *)
Definition test_pipe : M World PayloadOrError := chain start test_steps.

Definition Payload_PipeTest : M World unit :=
  res <- test_pipe ;;
  if has_value res then
    p <- arrow res ;;
    print ("Success! Result of the pipe: fStr == " ++ fStr p
           ++ " fVal == " ++ show_int (fVal p))
  else
    match res with
    | Unexpected e => print (case_text (switch e))
    | Value _ => fault
    end.

End Example.

(** A result the example pipeline can end in by the look of its steps: a
    value, or one of the two errors [Payload_Proc_2] makes up. *)
Definition value_or_flow_error (r : PayloadOrError) : Prop :=
  match r with
  | Value _ => True
  | Unexpected e => e = kOverflow \/ e = kUnderflow
  end.

(** Modelled from the spec: [appendText], the step of Scenarios A, B and C
    of the specification, which the source does not define. It appends a
    fragment to the text of the payload and always succeeds. *)
Definition appendText {W : Type} (fragment : string)
  : @Function Payload OpErrorType W :=
  fun p => ret (Value (mkPayload (fStr p ++ fragment) (fVal p))).

(** Modelled from the spec: [alwaysFail], the step of Scenario B, which
    the source does not define. It returns the given error. *)
Definition alwaysFail {W : Type} (e : OpErrorType)
  : @Function Payload OpErrorType W :=
  fun _ => ret (Unexpected e).

(** Modelled from the spec: the step of the scenarios that records
    whether it was invoked. The state is the flag; the step raises it and
    then runs [f]. *)
Definition flagged (f : @Function Payload OpErrorType bool)
  : @Function Payload OpErrorType bool :=
  fun p _ => f p true.

(** Data for concrete runs: an engine whose [i]-th value is [seed + i], and
    a world with an empty console whose random device always returns [v]. *)
Definition sample_engine : Z -> nat -> Z := fun seed i => seed + Z.of_nat i.

Definition sample_world (v : Z) : World := mkWorld "" (fun _ => v) 0.

(** *** Reading a trace of invocations *)

Section Trace.
Context {T E W : Type}.

(** The invocations [cs] hand the payload along: the first one was given
    the value [prev] holds, each later one the value the one before it
    returned, and none follows an invocation that returned an error or
    faulted. *)
Fixpoint linked (prev : expected T E) (cs : list (@call T E W)) : Prop :=
  match cs with
  | [] => True
  | c :: cs' =>
      prev = Value (call_arg c) /\
      match call_result c with
      | Ret (r, _) => linked r cs'
      | Fault => cs' = []
      end
  end.

(** A callable on expecteds that hands an error back as it received it
    and touches nothing: what [if (!s) return s;] makes of a step. *)
Definition passes_errors (g : expected T E -> M W (expected T E)) : Prop :=
  forall e w, g (Unexpected e) w = Ret (Unexpected e, w).

End Trace.

(** *** Pipelines assembled from the three steps *)

(** The three steps by name, to speak of chains of them in any number and
    order. *)
Inductive step_name : Type :=
| proc_1
| proc_2
| proc_3.

Definition step (mt19937 : Z -> nat -> Z) (k : step_name)
  : PayloadOrError -> M World PayloadOrError :=
  match k with
  | proc_1 => Payload_Proc_1
  | proc_2 => Payload_Proc_2 mt19937
  | proc_3 => Payload_Proc_3
  end.

Definition steps_of (mt19937 : Z -> nat -> Z) (ks : list step_name)
  : list (@Function Payload OpErrorType World) :=
  map (fun k => invoke_with (step mt19937 k)) ks.

(** What a step adds to [fVal], what it appends to [fStr], and how many
    values of the random device it takes. *)
Definition step_increment (k : step_name) : Z :=
  match k with
  | proc_1 => 1
  | proc_2 => 1
  | proc_3 => 3
  end.

Definition step_suffix (k : step_name) : string :=
  match k with
  | proc_1 => " proc by 1,"
  | proc_2 => " proc by 2,"
  | proc_3 => " proc by 3,"
  end.

Definition step_draws (k : step_name) : nat :=
  match k with
  | proc_2 => 1
  | _ => 0
  end.

Definition total_increment (ks : list step_name) : Z :=
  fold_right (fun k n => step_increment k + n) 0 ks.

Definition all_suffixes (ks : list step_name) : string :=
  fold_right (fun k s => step_suffix k ++ s) "" ks.

Definition total_draws (ks : list step_name) : nat :=
  fold_right (fun k n => (step_draws k + n)%nat) 0%nat ks.

End v3.

(** * Properties *)

Import v3.

(** ** The operator and chains of it *)

Section OperatorFacts.
Context {T E W : Type}.
Implicit Types (ex r : expected T E) (f : @Function T E W)
  (fs : list (@Function T E W)) (w : W).

Lemma pipe_value t f w : pipe (Value t) f w = f t w.
Proof. reflexivity. Qed.

Lemma pipe_unexpected e f w :
  pipe (Unexpected e) f w = Ret (Unexpected e, w).
Proof. reflexivity. Qed.

Lemma chain_cons ex f fs w :
  chain ex (f :: fs) w =
  match pipe ex f w with
  | Ret (r, w') => chain r fs w'
  | Fault => Fault
  end.
Proof. reflexivity. Qed.

Lemma chain_unexpected e fs w :
  chain (Unexpected e) fs w = Ret (Unexpected e, w).
Proof.
  induction fs as [|f fs IH]; [reflexivity|].
  rewrite chain_cons, pipe_unexpected. exact IH.
Qed.

Lemma chain_app ex fs1 fs2 w :
  chain ex (fs1 ++ fs2) w =
  match chain ex fs1 w with
  | Ret (r, w') => chain r fs2 w'
  | Fault => Fault
  end.
Proof.
  revert ex w. induction fs1 as [|f fs1 IH]; intros ex w; [reflexivity|].
  rewrite <- app_comm_cons, !chain_cons.
  destruct (pipe ex f w) as [[r w']|]; [apply IH | reflexivity].
Qed.

Lemma calls_from_unexpected i e fs w :
  calls_from i (Unexpected e) fs w = [].
Proof.
  revert i. induction fs as [|f fs IH]; intros i; [reflexivity|].
  cbn [calls_from invocation app]. rewrite pipe_unexpected. apply IH.
Qed.

Lemma calls_from_app i ex fs1 fs2 w :
  calls_from i ex (fs1 ++ fs2) w =
  calls_from i ex fs1 w ++
  match chain ex fs1 w with
  | Ret (r, w') => calls_from (i + length fs1) r fs2 w'
  | Fault => []
  end.
Proof.
  revert i ex w. induction fs1 as [|f fs1 IH]; intros i ex w.
  - cbn. now rewrite Nat.add_0_r.
  - rewrite <- app_comm_cons, chain_cons. cbn [calls_from].
    rewrite <- app_assoc. f_equal.
    destruct (pipe ex f w) as [[r w']|]; [|reflexivity].
    rewrite IH. cbn [length]. now rewrite Nat.add_succ_r.
Qed.

Lemma calls_from_index i ex fs w :
  Forall (fun c => i <= call_index c < i + length fs)
         (calls_from i ex fs w).
Proof.
  revert i ex w. induction fs as [|f fs IH]; intros i ex w; [constructor|].
  cbn [calls_from length]. apply Forall_app. split.
  - destruct ex; cbn; repeat constructor; cbn; lia.
  - destruct (pipe ex f w) as [[r w']|]; [|constructor].
    eapply Forall_impl; [|apply IH]. cbn. intros c Hc. lia.
Qed.

Lemma last_cons_default {A : Type} (a d : A) (l : list A) :
  last (a :: l) d = last l a.
Proof.
  revert a d. induction l as [|b l IH]; intros a d; [reflexivity|].
  change (last (a :: b :: l) d) with (last (b :: l) d).
  now rewrite (IH b d), (IH b a).
Qed.

(** What a chain returns is what the last callable invoked returned, and
    the initial operand when none was invoked. *)
Lemma chain_returned_last i ex fs w :
  returned (chain ex fs w) =
  last (map call_returned (calls_from i ex fs w)) (Ret ex).
Proof.
  revert i ex w. induction fs as [|f fs IH]; intros i ex w; [reflexivity|].
  destruct ex as [t|e].
  - rewrite chain_cons, pipe_value. cbn [calls_from invocation app].
    rewrite pipe_value. change ([?c] ++ ?l) with (c :: l). cbn [map].
    rewrite last_cons_default.
    unfold call_returned at 2. cbn [call_result].
    destruct (f t w) as [[r w']|]; [apply IH | reflexivity].
  - now rewrite chain_unexpected, calls_from_unexpected.
Qed.

Lemma chain_fault_calls i ex fs w :
  chain ex fs w = Fault <->
  exists c, In c (calls_from i ex fs w) /\ call_result c = Fault.
Proof.
  revert i ex w. induction fs as [|f fs IH]; intros i ex w.
  - cbn. split; [discriminate | intros [c [[] _]]].
  - destruct ex as [t|e].
    + rewrite chain_cons. cbn [calls_from invocation].
      rewrite pipe_value. change ([?c] ++ ?l) with (c :: l).
      destruct (f t w) as [[r w']|] eqn:Hf.
      * rewrite (IH (S i) r w'). split.
        -- intros [c [Hin Hc]]. exists c. split; [now right | exact Hc].
        -- intros [c [[Hc0|Hin] Hc]].
           ++ subst c. discriminate Hc.
           ++ now exists c.
      * split; [|reflexivity]. intros _.
        exists (Call i t Fault). split; [now left | reflexivity].
    + rewrite chain_unexpected, calls_from_unexpected.
      split; [discriminate | intros [c [[] _]]].
Qed.

(** C4. Identity on the empty chain: a chain of no callable returns its
    initial operand, a value or an error, unchanged, leaves the state as
    it was and invokes nothing. *)
Theorem empty_chain_identity ex w :
  chain ex (@nil (@Function T E W)) w = Ret (ex, w) /\
  calls ex (@nil (@Function T E W)) w = [].
Proof. split; reflexivity. Qed.

(** C1. Short circuit: once the operand of the chain is an error, at the
    start or as what a callable returned, the rest of the chain returns
    that error unchanged, in the state the error was produced in, and
    invokes none of the callables after that point. *)
Theorem short_circuit fs1 fs2 ex w e w' :
  chain ex fs1 w = Ret (Unexpected e, w') ->
  chain ex (fs1 ++ fs2) w = Ret (Unexpected e, w') /\
  calls ex (fs1 ++ fs2) w = calls ex fs1 w /\
  Forall (fun c => call_index c < length fs1) (calls ex (fs1 ++ fs2) w).
Proof.
  intros H.
  assert (Hcalls : calls ex (fs1 ++ fs2) w = calls ex fs1 w).
  { unfold calls. rewrite calls_from_app, H, calls_from_unexpected.
    apply app_nil_r. }
  split; [|split].
  - rewrite chain_app, H. apply chain_unexpected.
  - exact Hcalls.
  - rewrite Hcalls. unfold calls.
    eapply Forall_impl; [|apply calls_from_index]. cbn. intros c Hc. lia.
Qed.

(** C6. The operator raises nothing of its own: it faults exactly when
    the callable it invokes faults, it reads the value of its operand
    only on the branch where the operand holds one, and on an error
    operand it returns the operand as it is without invoking anything.
    A chain faults exactly when one of the invocations it makes does. *)
Theorem evaluator_raises_nothing ex f fs w :
  (pipe ex f w = Fault <-> exists t, ex = Value t /\ f t w = Fault) /\
  (chain ex fs w = Fault <->
   exists c, In c (calls ex fs w) /\ call_result c = Fault) /\
  match ex with
  | Value t => deref ex w = Ret (t, w) /\ pipe ex f w = f t w
  | Unexpected _ => pipe ex f w = Ret (ex, w) /\ chain ex fs w = Ret (ex, w)
  end.
Proof.
  split; [|split].
  - destruct ex as [t|e].
    + rewrite pipe_value. split.
      * intros H. now exists t.
      * intros [t' [Ht H]]. now injection Ht as ->.
    + rewrite pipe_unexpected.
      split; [discriminate | intros [t [Ht _]]; discriminate Ht].
  - apply chain_fault_calls.
  - destruct ex as [t|e]; split; try reflexivity.
    apply chain_unexpected.
Qed.

(** C7. The evaluator is deterministic: two runs from the same initial
    operand in which the invoked callables returned the same sequence of
    outcomes return the same result, whatever the callables and the
    states of the two runs are. *)
Theorem evaluator_deterministic ex fs1 fs2 w1 w2 :
  map call_returned (calls ex fs1 w1) = map call_returned (calls ex fs2 w2) ->
  returned (chain ex fs1 w1) = returned (chain ex fs2 w2).
Proof.
  unfold calls. intros H.
  rewrite (chain_returned_last 0 ex fs1 w1), (chain_returned_last 0 ex fs2 w2).
  now rewrite H.
Qed.

End OperatorFacts.

(** ** The plain operator *)

(** [a | f | g] is [g(f(a))]. *)
Lemma v2_pipe_nested {W A B C : Type} (a : A) (f : A -> M W B)
  (g : B -> M W C) (w : W) :
  (r <- v2.pipe a f ;; v2.pipe r g) w = (r <- f a ;; g r) w.
Proof. reflexivity. Qed.

Lemma v2_chain_two {W A : Type} (a : A) (f g : A -> M W A) (w : W) :
  v2.chain a [f; g] w = (r <- f a ;; g r) w.
Proof.
  cbn [v2.chain]. unfold bind, v2.pipe, ret.
  destruct (f a w) as [[r w']|]; [|reflexivity].
  destruct (g r w') as [[r' w'']|]; reflexivity.
Qed.

Example v2_SimplePipeTest_prints :
  match v2.SimplePipeTest (mkWorld "" (fun _ => 0%Z) 0) with
  | Ret (_, w) =>
      cout w =
      ("I'm in StringProc_1, s = Start string  proc by 1," ++ endl
       ++ "I'm in StringProc_2, s = Start string  proc by 1, proc by 2," ++ endl
       ++ "I'm in StringProc_3, s = Start string  proc by 1, proc by 2, proc by 3,"
       ++ endl
       ++ "Start string  proc by 1, proc by 2, proc by 3,")%string
  | Fault => False
  end.
Proof. reflexivity. Qed.

(** ** Chains where every callable succeeds *)

Section Composition.
Context {T E W : Type}.
Implicit Types (ex r : expected T E) (f : @Function T E W)
  (fs : list (@Function T E W)) (w : W).

Lemma fold_payload_cons t f fs w :
  fold_payload (Value t) (f :: fs) w =
  match f t w with
  | Ret (r, w') => fold_payload r fs w'
  | Fault => Fault
  end.
Proof. reflexivity. Qed.

Lemma succeeded_head i t f fs w :
  forallb succeeded (calls_from i (Value t) (f :: fs) w) = true ->
  exists t' w',
    f t w = Ret (Value t', w') /\
    forallb succeeded (calls_from (S i) (Value t') fs w') = true.
Proof.
  cbn [calls_from invocation]. rewrite pipe_value.
  change ([?c] ++ ?l) with (c :: l). cbn [forallb].
  intros H. apply andb_prop in H. destruct H as [Hc Hrest].
  unfold succeeded at 1 in Hc. cbn [call_result] in Hc.
  destruct (f t w) as [[[t'|e'] w']|]; try discriminate Hc.
  now exists t', w'.
Qed.

Lemma chain_fold_payload i t fs w :
  forallb succeeded (calls_from i (Value t) fs w) = true ->
  chain (Value t) fs w = fold_payload (Value t) fs w.
Proof.
  revert i t w. induction fs as [|f fs IH]; intros i t w H; [reflexivity|].
  destruct (succeeded_head _ _ _ _ _ H) as [t' [w' [Hf Hrest]]].
  rewrite chain_cons, pipe_value, fold_payload_cons, Hf.
  now apply (IH (S i)).
Qed.

Lemma chain_nested i t (gs : list (expected T E -> M W (expected T E))) w :
  forallb succeeded (calls_from i (Value t) (map invoke_with gs) w) = true ->
  chain (Value t) (map invoke_with gs) w = v2.chain (Value t) gs w.
Proof.
  revert i t w. induction gs as [|g gs IH]; intros i t w H; [reflexivity|].
  cbn [map] in *.
  destruct (succeeded_head _ _ _ _ _ H) as [t' [w' [Hg Hrest]]].
  rewrite chain_cons, pipe_value, Hg.
  cbn [v2.chain]. unfold bind, v2.pipe. unfold invoke_with in Hg.
  rewrite Hg. now apply (IH (S i)).
Qed.

(** C2. Success-path composition: when every callable the chain invokes
    returns a value, the chain returns what folding the callables by hand
    over the initial payload returns, and for callables that take an
    expected, as the ones of the example do, what nested application
    [gn( ... g2(g1(a)))], the chain of the plain operator of [v2], returns. *)
Theorem success_path_composition fs (a : T) w :
  forallb succeeded (calls (Value a) fs w) = true ->
  chain (Value a) fs w = fold_payload (Value a) fs w /\
  forall gs, fs = map invoke_with gs ->
             chain (Value a) fs w = v2.chain (Value a) gs w.
Proof.
  intros H. split.
  - now apply (chain_fold_payload 0).
  - intros gs ->. now apply (chain_nested 0).
Qed.

End Composition.

(** ** The state machine of the specification *)

Section Machine.
Context {T E W : Type}.
Implicit Types (ex r : expected T E) (f : @Function T E W)
  (fs steps : list (@Function T E W)) (w : W).

Lemma run_done steps n r w : run steps n (Done r w) = Ret (Done r w).
Proof. destruct n; reflexivity. Qed.

Lemma run_suffix fs : forall pre ex w,
  run (pre ++ fs) (S (length fs)) (Running (length pre) ex w) =
  match chain ex fs w with
  | Ret (r, w') => Ret (Done r w')
  | Fault => Fault
  end.
Proof.
  induction fs as [|f fs IH]; intros pre ex w.
  - cbn [run transition length chain]. rewrite app_nil_r.
    replace (nth_error pre (length pre)) with (@None (@Function T E W))
      by (symmetry; apply nth_error_None; lia).
    now rewrite Nat.eqb_refl.
  - change (run (pre ++ f :: fs) (S (length (f :: fs))) (Running (length pre) ex w))
      with (match transition (pre ++ f :: fs) (Running (length pre) ex w) with
            | Ret (Some st') => run (pre ++ f :: fs) (S (length fs)) st'
            | Ret None => Ret (Running (length pre) ex w)
            | Fault => Fault
            end).
    cbn [transition].
    rewrite nth_error_app2 by lia. rewrite Nat.sub_diag. cbn [nth_error].
    destruct ex as [t|e].
    + rewrite chain_cons, pipe_value.
      destruct (f t w) as [[r w']|]; [|reflexivity].
      specialize (IH (pre ++ [f]) r w').
      rewrite <- app_assoc, length_app in IH. cbn [app length] in IH.
      rewrite Nat.add_1_r in IH. exact IH.
    + now rewrite run_done, chain_unexpected.
Qed.

Lemma transition_rank steps (st : @state T E W) :
  match transition steps st with
  | Ret (Some st') => rank steps st < rank steps st'
  | _ => True
  end.
Proof.
  destruct st as [i r w|r w]; [|exact I]. cbn [transition].
  destruct (nth_error steps i) as [f|] eqn:Hnth.
  - assert (i < length steps) by (apply nth_error_Some; congruence).
    destruct r as [t|e]; [|cbn; lia].
    destruct (f t w) as [[r' w']|]; [cbn; lia | exact I].
  - destruct (Nat.eqb_spec i (length steps)); [cbn; lia | exact I].
Qed.

(** C5, as amended. The machine started at [Running 0 ex] reaches the
    terminal state [Done] holding what the chain of the operator returns
    within [length steps + 1] transitions, and faults exactly when the
    chain does; every transition moves strictly forward along the chain,
    so no state is entered twice, and [Done] has no transition. *)
Theorem machine_terminates steps ex w :
  run steps (S (length steps)) (Running 0 ex w) =
    match chain ex steps w with
    | Ret (r, w') => Ret (Done r w')
    | Fault => Fault
    end /\
  (forall st : @state T E W,
      match transition steps st with
      | Ret (Some st') => rank steps st < rank steps st'
      | _ => True
      end) /\
  (forall r w', transition steps (Done r w') = Ret None).
Proof.
  split; [|split].
  - exact (run_suffix steps [] ex w).
  - apply transition_rank.
  - reflexivity.
Qed.

End Machine.

(** ** What the callables are invoked with, and what they return *)

Section Invocations.
Context {T E W : Type}.
Implicit Types (ex r : expected T E) (w : W).

(** Callables that record their argument only ever record values. *)
Lemma observed_arguments (gs : list (expected T E -> M W (expected T E))) :
  forall ex w seen,
    match chain ex (map (fun g => invoke_with (observe g)) gs) (w, seen) with
    | Ret (_, (_, seen')) =>
        exists args, seen' = seen ++ args /\ forallb has_value args = true
    | Fault => True
    end.
Proof.
  induction gs as [|g gs IH]; intros ex w seen.
  - cbn. exists []. now rewrite app_nil_r.
  - cbn [map]. destruct ex as [t|e].
    + rewrite chain_cons, pipe_value. unfold invoke_with at 1.
      unfold observe at 1. cbn [fst snd].
      destruct (g (Value t) w) as [[r w']|]; [|exact I].
      specialize (IH r w' (seen ++ [Value t])).
      destruct (chain r _ _) as [[r' [w'' seen']]|]; [|exact I].
      destruct IH as [args [-> Hargs]].
      exists (Value t :: args). rewrite <- app_assoc. now split.
    + rewrite chain_unexpected. exists []. now rewrite app_nil_r.
Qed.

(** A callable whose body is run only past a test of its argument behaves,
    under the operator, as the body alone. *)
Lemma pipe_guarded (g body : expected T E -> M W (expected T E)) ex w :
  (forall t w0, g (Value t) w0 = body (Value t) w0) ->
  pipe ex (invoke_with g) w = pipe ex (invoke_with body) w.
Proof.
  intros H. destruct ex as [t|e]; [|reflexivity].
  rewrite !pipe_value. apply H.
Qed.

(** A property of what every callable returns holds of every invocation
    and of what the chain returns. *)
Lemma calls_from_invariant (P : outcome (expected T E * W) -> Prop)
  (fs : list (@Function T E W)) :
  Forall (fun f => forall t w, P (f t w)) fs ->
  forall i ex w, Forall (fun c => P (call_result c)) (calls_from i ex fs w).
Proof.
  induction 1 as [|f fs Hf _ IH]; intros i ex w; [constructor|].
  cbn [calls_from]. apply Forall_app. split.
  - destruct ex as [t|e]; cbn; repeat constructor. apply Hf.
  - destruct (pipe ex f w) as [[r w']|]; [apply IH | constructor].
Qed.

Lemma chain_invariant (Q : expected T E -> Prop)
  (fs : list (@Function T E W)) :
  Forall (fun f => forall t w,
              match f t w with Ret (r, _) => Q r | Fault => True end) fs ->
  forall ex w, Q ex ->
    match chain ex fs w with Ret (r, _) => Q r | Fault => True end.
Proof.
  induction 1 as [|f fs Hf _ IH]; intros ex w Hex; [exact Hex|].
  change (chain ex (f :: fs) w)
    with (match pipe ex f w with
          | Ret (r, w') => chain r fs w'
          | Fault => Fault
          end).
  destruct ex as [t|e].
  - change (pipe (Value t) f w) with (f t w). specialize (Hf t w).
    destruct (f t w) as [[r w']|]; [now apply IH | exact I].
  - now apply IH.
Qed.

End Invocations.

(** ** The example pipeline *)

Local Open Scope string_scope.
Local Open Scope Z_scope.

Lemma string_app_assoc (a b c : string) : (a ++ b) ++ c = a ++ (b ++ c).
Proof. induction a as [|x a IH]; cbn; [reflexivity | now rewrite IH]. Qed.

Lemma string_app_nil_r (a : string) : a ++ "" = a.
Proof. induction a as [|x a IH]; cbn; [reflexivity | now rewrite IH]. Qed.

Lemma int_add_in_range {W : Type} (a b : Z) (w : W) :
  INT_MIN <= a + b <= INT_MAX -> int_add a b w = Ret (a + b, w).
Proof.
  intros [Hlo Hhi]. unfold int_add.
  apply Z.leb_le in Hlo. apply Z.leb_le in Hhi. now rewrite Hlo, Hhi.
Qed.

Lemma int_add_cases {W : Type} (a b : Z) (w : W) :
  int_add a b w = Ret (a + b, w) \/ int_add a b w = Fault.
Proof.
  unfold int_add.
  destruct ((INT_MIN <=? a + b) && (a + b <=? INT_MAX)); [now left | now right].
Qed.

Lemma Payload_Proc_1_value p w :
  Payload_Proc_1 (Value p) w =
  match int_add (fVal p) 1 w with
  | Ret (n, _) =>
      Ret (Value (mkPayload (fStr p ++ " proc by 1,") n),
           mkWorld (cout w ++ "I'm in Payload_Proc_1, s = "
                           ++ (fStr p ++ " proc by 1,") ++ endl)
                   (random_device w) (drawn w))
  | Fault => Fault
  end.
Proof.
  unfold Payload_Proc_1, Payload_Proc_1_body, arrow, deref, bind, ret.
  cbn [has_value negb]. destruct (int_add_cases (fVal p) 1 w) as [H|H];
    rewrite H; reflexivity.
Qed.

Lemma Payload_Proc_3_value p w :
  Payload_Proc_3 (Value p) w =
  match int_add (fVal p) 3 w with
  | Ret (n, _) =>
      Ret (Value (mkPayload (fStr p ++ " proc by 3,") n),
           mkWorld (cout w ++ "I'm in Payload_Proc_3, s = "
                           ++ (fStr p ++ " proc by 3,") ++ endl)
                   (random_device w) (drawn w))
  | Fault => Fault
  end.
Proof.
  unfold Payload_Proc_3, Payload_Proc_3_body, arrow, deref, bind, ret.
  cbn [has_value negb]. destruct (int_add_cases (fVal p) 3 w) as [H|H];
    rewrite H; reflexivity.
Qed.

Section ExampleFacts.
Variable mt19937 : Z -> nat -> Z.

Lemma Payload_Proc_2_value p w :
  Payload_Proc_2 mt19937 (Value p) w =
  match int_add (fVal p) 1 w with
  | Ret (n, _) =>
      let rand_gen := mt19937 (random_device w (drawn w) mod 2 ^ 32) in
      Ret (if negb (rand_gen 0%nat mod 2 =? 0)
           then Value (mkPayload (fStr p ++ " proc by 2,") n)
           else Unexpected (if negb (rand_gen 1%nat mod 2 =? 0)
                            then kOverflow else kUnderflow),
           mkWorld (cout w ++ "I'm in Payload_Proc_2, s = "
                           ++ (fStr p ++ " proc by 2,") ++ endl)
                   (random_device w) (S (drawn w)))
  | Fault => Fault
  end.
Proof.
  unfold Payload_Proc_2, Payload_Proc_2_body, arrow, deref, bind, ret.
  cbn [has_value negb]. destruct (int_add_cases (fVal p) 1 w) as [H|H];
    rewrite H; [|reflexivity].
  unfold print, random_device_call. cbn [cout random_device drawn fStr].
  cbv zeta.
  destruct (negb (mt19937 (random_device w (drawn w) mod 2 ^ 32) 0%nat mod 2 =? 0));
    reflexivity.
Qed.

(** What the pipeline of [Payload_PipeTest] returns, by the two values
    the engine of [Payload_Proc_2] gives. *)
Lemma test_pipe_run w :
  let rand_gen := mt19937 (random_device w (drawn w) mod 2 ^ 32) in
  let text1 := "I'm in Payload_Proc_1, s = Start string  proc by 1," ++ endl in
  let text2 :=
    "I'm in Payload_Proc_2, s = Start string  proc by 1, proc by 2," ++ endl in
  let text3 :=
    "I'm in Payload_Proc_3, s = Start string  proc by 1, proc by 2, proc by 3,"
      ++ endl in
  test_pipe mt19937 w =
  if negb (rand_gen 0%nat mod 2 =? 0) then
    Ret (Value (mkPayload "Start string  proc by 1, proc by 2, proc by 3," 47),
         mkWorld (cout w ++ text1 ++ text2 ++ text3)
                 (random_device w) (S (drawn w)))
  else
    Ret (Unexpected (if negb (rand_gen 1%nat mod 2 =? 0)
                     then kOverflow else kUnderflow),
         mkWorld (cout w ++ text1 ++ text2) (random_device w) (S (drawn w))).
Proof.
  cbv zeta. unfold test_pipe, test_steps, start.
  rewrite chain_cons, pipe_value. unfold invoke_with at 1.
  rewrite Payload_Proc_1_value. cbn [fVal fStr].
  rewrite int_add_in_range by (unfold INT_MIN, INT_MAX; lia).
  rewrite chain_cons, pipe_value. unfold invoke_with at 1.
  rewrite Payload_Proc_2_value. cbn [fVal fStr cout random_device drawn].
  rewrite int_add_in_range by (unfold INT_MIN, INT_MAX; lia).
  cbv zeta.
  destruct (negb (mt19937 (random_device w (drawn w) mod 2 ^ 32) 0%nat mod 2 =? 0)).
  - rewrite chain_cons, pipe_value. unfold invoke_with at 1.
    rewrite Payload_Proc_3_value. cbn [fVal fStr cout random_device drawn].
    rewrite int_add_in_range by (unfold INT_MIN, INT_MAX; lia).
    cbn [chain]. unfold ret. rewrite !string_app_assoc. reflexivity.
  - rewrite chain_unexpected. rewrite !string_app_assoc. reflexivity.
Qed.

Lemma test_steps_flow :
  Forall (fun f : @Function Payload OpErrorType World =>
            forall p w,
              match f p w with
              | Ret (r, _) => value_or_flow_error r
              | Fault => True
              end)
         (test_steps mt19937).
Proof.
  unfold test_steps. repeat constructor; intros p w; unfold invoke_with.
  - rewrite Payload_Proc_1_value.
    destruct (int_add (fVal p) 1 w) as [[n w']|]; exact I.
  - rewrite Payload_Proc_2_value.
    destruct (int_add (fVal p) 1 w) as [[n w']|]; [|exact I]. cbv zeta.
    destruct (negb (_ =? 0)); [exact I|].
    destruct (negb (_ =? 0)); cbn; auto.
  - rewrite Payload_Proc_3_value.
    destruct (int_add (fVal p) 3 w) as [[n w']|]; exact I.
Qed.

(** C9. In [Payload_PipeTest], seeded with the payload
    ["Start string ", 42], when [Payload_Proc_2] takes its success branch
    (the first value of its engine is odd) the pipeline returns a value
    with [fVal = 47] and
    [fStr = "Start string  proc by 1, proc by 2, proc by 3,"], and the test
    prints them after the lines of the three steps. *)
Theorem pipe_test_success w :
  mt19937 (random_device w (drawn w) mod 2 ^ 32) 0%nat mod 2 <> 0 ->
  returned (test_pipe mt19937 w) =
    Ret (Value (mkPayload "Start string  proc by 1, proc by 2, proc by 3," 47)) /\
  exists w',
    Payload_PipeTest mt19937 w = Ret (tt, w') /\
    cout w' =
      cout w
      ++ "I'm in Payload_Proc_1, s = Start string  proc by 1," ++ endl
      ++ "I'm in Payload_Proc_2, s = Start string  proc by 1, proc by 2," ++ endl
      ++ "I'm in Payload_Proc_3, s = Start string  proc by 1, proc by 2, proc by 3,"
      ++ endl
      ++ "Success! Result of the pipe: fStr == "
      ++ "Start string  proc by 1, proc by 2, proc by 3," ++ " fVal == 47".
Proof.
  intros H. apply Z.eqb_neq in H.
  pose proof (test_pipe_run w) as Hrun. cbv zeta in Hrun.
  rewrite H in Hrun. cbn [negb] in Hrun.
  split.
  - now rewrite Hrun.
  - unfold Payload_PipeTest, bind. rewrite Hrun. cbn [has_value].
    unfold arrow, deref, ret, print. cbn [fStr fVal cout].
    eexists. split; [reflexivity|]. cbn [cout].
    rewrite !string_app_assoc. reflexivity.
Qed.

(** C10. Every result of the pipeline of [Payload_PipeTest] is a value or
    one of [kOverflow], [kUnderflow]: this holds of what each step
    invoked returns and of what the pipeline returns, from the payload of
    the test (where no step faults either) and from any other payload; so
    the [switch] of the test is never entered at [kInvalidInput] nor at
    [default]. *)
Theorem pipe_test_error_kinds w :
  (exists r w',
      test_pipe mt19937 w = Ret (r, w') /\ value_or_flow_error r /\
      match r with
      | Value _ => True
      | Unexpected e =>
          e <> kInvalidInput /\
          (switch e = case_kOverflow \/ switch e = case_kUnderflow)
      end) /\
  Forall (fun c => exists r w',
              call_result c = Ret (r, w') /\ value_or_flow_error r)
         (calls start (test_steps mt19937) w) /\
  (forall p : Payload,
      match chain (Value p) (test_steps mt19937) w with
      | Ret (r, _) => value_or_flow_error r
      | Fault => True
      end /\
      Forall (fun c => match call_result c with
                       | Ret (r, _) => value_or_flow_error r
                       | Fault => True
                       end)
             (calls (Value p) (test_steps mt19937) w)).
Proof.
  pose proof (test_pipe_run w) as Hrun. cbv zeta in Hrun.
  split; [|split].
  - rewrite Hrun. destruct (negb (_ =? 0)).
    + do 2 eexists. split; [reflexivity|]. split; exact I.
    + do 2 eexists. split; [reflexivity|].
      destruct (negb (_ =? 0)); cbn; split; auto; split;
        solve [discriminate | auto].
  - assert (Hnf : chain start (test_steps mt19937) w <> Fault).
    { fold (test_pipe mt19937). rewrite Hrun.
      destruct (negb (_ =? 0)); discriminate. }
    pose proof (calls_from_invariant
                  (fun o : outcome (PayloadOrError * World) =>
                     match o with
                     | Ret (r, _) => value_or_flow_error r
                     | Fault => True
                     end)
                  test_steps_flow 0%nat start w) as Hc.
    apply Forall_forall. intros c Hin.
    rewrite Forall_forall in Hc. specialize (Hc c Hin). cbv beta in Hc.
    destruct (call_result c) as [[r w']|] eqn:Hres.
    + now exists r, w'.
    + exfalso. apply Hnf. apply (chain_fault_calls 0). now exists c.
  - intros p. split.
    + apply (chain_invariant value_or_flow_error test_steps_flow). exact I.
    + apply (calls_from_invariant
               (fun o : outcome (PayloadOrError * World) =>
                  match o with
                  | Ret (r, _) => value_or_flow_error r
                  | Fault => True
                  end)
               test_steps_flow).
Qed.

(** C8. The operator invokes a callable that takes an expected with a
    value only: callables that record the argument they receive record
    nothing but values; and each of the three steps of the example,
    under the operator, behaves as its body without the initial test of
    [s], so that test never succeeds there. *)
Theorem guards_unreachable
  (gs : list (PayloadOrError -> M World PayloadOrError)) ex w seen :
  match chain ex (map (fun g => invoke_with (observe g)) gs) (w, seen) with
  | Ret (_, (_, seen')) =>
      exists args, seen' = (seen ++ args)%list /\ forallb has_value args = true
  | Fault => True
  end /\
  pipe ex (invoke_with Payload_Proc_1) w =
    pipe ex (invoke_with Payload_Proc_1_body) w /\
  pipe ex (invoke_with (Payload_Proc_2 mt19937)) w =
    pipe ex (invoke_with (Payload_Proc_2_body mt19937)) w /\
  pipe ex (invoke_with Payload_Proc_3) w =
    pipe ex (invoke_with Payload_Proc_3_body) w.
Proof.
  split; [apply observed_arguments|].
  repeat split; apply pipe_guarded; reflexivity.
Qed.

End ExampleFacts.

(** C3. A pipeline seeded with a value whose steps only append to the
    text returns a value whose text is the initial text followed by the
    fragments in order and whose counter is the initial one, and leaves the
    state as it was; Scenario A is the case of ["start"], [0] and the
    fragments ["-a"], ["-b"]. *)
Theorem append_only_frame {W : Type} (fragments : list string)
  (text : string) (n : Z) (w : W) :
  chain (Value (mkPayload text n)) (map appendText fragments) w =
    Ret (Value (mkPayload (text ++ fold_right append "" fragments) n), w) /\
  chain (Value (mkPayload "start" 0)) [appendText "-a"; appendText "-b"] w =
    Ret (Value (mkPayload "start-a-b" 0), w).
Proof.
  split; [|reflexivity].
  revert text. induction fragments as [|a fragments IH]; intros text.
  - cbn. now rewrite string_app_nil_r.
  - cbn [map fold_right]. rewrite chain_cons, pipe_value.
    unfold appendText at 1. unfold ret. cbn [fStr fVal].
    rewrite IH. now rewrite string_app_assoc.
Qed.

(** ** Concrete runs *)

(** Scenario B: the third step is not invoked, its flag stays down. *)
Example scenario_B :
  chain (Value (mkPayload "start" 0))
        [appendText "-a"; alwaysFail kOverflow; flagged (appendText "-c")]
        false
  = Ret (Unexpected kOverflow, false).
Proof. reflexivity. Qed.

(** Scenario C: an initial error comes back unchanged, the step is not
    invoked. *)
Example scenario_C :
  chain (Unexpected kInvalidInput) [flagged (appendText "-a")] false
  = Ret (Unexpected kInvalidInput, false).
Proof. reflexivity. Qed.

(** Without the error in the middle the flagged step does run. *)
Example scenario_B_no_error :
  chain (Value (mkPayload "start" 0))
        [appendText "-a"; flagged (appendText "-c")] false
  = Ret (Value (mkPayload "start-a-c" 0), true).
Proof. reflexivity. Qed.

(** The steps of the example do change the counter: they are not steps
    that only append text. *)
Example Payload_Proc_1_counts :
  returned (Payload_Proc_1 (Value (mkPayload "start" 0)) (sample_world 1))
  = Ret (Value (mkPayload "start proc by 1," 1)).
Proof. reflexivity. Qed.

(** The error branches of [Payload_PipeTest]. *)
Example pipe_test_overflow :
  returned (test_pipe sample_engine (sample_world 2)) = Ret (Unexpected kOverflow)
  /\ returned (test_pipe (fun _ _ => 0) (sample_world 2))
     = Ret (Unexpected kUnderflow).
Proof. split; vm_compute; reflexivity. Qed.

Lemma short_circuit_witness :
  chain (Value (mkPayload "start" 0)) [appendText "-a"; alwaysFail kOverflow]
        false
  = Ret (Unexpected kOverflow, false) /\
  (chain (Value (mkPayload "start" 0))
         ([appendText "-a"; alwaysFail kOverflow] ++ [flagged (appendText "-c")])
         false
   = Ret (Unexpected kOverflow, false) /\
   calls (Value (mkPayload "start" 0))
         ([appendText "-a"; alwaysFail kOverflow] ++ [flagged (appendText "-c")])
         false
   = calls (Value (mkPayload "start" 0))
           [appendText "-a"; alwaysFail kOverflow] false /\
   Forall (fun c => (call_index c < 2)%nat)
          (calls (Value (mkPayload "start" 0))
                 ([appendText "-a"; alwaysFail kOverflow]
                    ++ [flagged (appendText "-c")])
                 false)).
Proof.
  split; [reflexivity|].
  apply (short_circuit [appendText "-a"; alwaysFail kOverflow]
                       [flagged (appendText "-c")]).
  reflexivity.
Defined.

Lemma success_path_composition_witness :
  forallb succeeded
          (calls (Value (mkPayload "start" 0))
                 (map invoke_with [Payload_Proc_1; Payload_Proc_3])
                 (sample_world 1)) = true /\
  chain (Value (mkPayload "start" 0))
        (map invoke_with [Payload_Proc_1; Payload_Proc_3]) (sample_world 1)
  = fold_payload (Value (mkPayload "start" 0))
                 (map invoke_with [Payload_Proc_1; Payload_Proc_3])
                 (sample_world 1) /\
  chain (Value (mkPayload "start" 0))
        (map invoke_with [Payload_Proc_1; Payload_Proc_3]) (sample_world 1)
  = v2.chain (Value (mkPayload "start" 0)) [Payload_Proc_1; Payload_Proc_3]
             (sample_world 1).
Proof.
  split; [reflexivity|].
  destruct (success_path_composition
              (map invoke_with [Payload_Proc_1; Payload_Proc_3])
              (mkPayload "start" 0) (sample_world 1) eq_refl) as [Hfold Hnest].
  split; [exact Hfold | exact (Hnest _ eq_refl)].
Defined.

Lemma evaluator_deterministic_witness :
  map call_returned (calls start (test_steps sample_engine) (sample_world 1))
  = map call_returned (calls start (test_steps (fun _ _ => 5)) (sample_world 8))
  /\
  returned (chain start (test_steps sample_engine) (sample_world 1))
  = returned (chain start (test_steps (fun _ _ => 5)) (sample_world 8)).
Proof.
  split; [vm_compute; reflexivity|].
  apply evaluator_deterministic. vm_compute. reflexivity.
Defined.

Lemma pipe_test_success_witness :
  sample_engine (random_device (sample_world 1) (drawn (sample_world 1)) mod 2 ^ 32)
                0%nat mod 2 <> 0 /\
  returned (test_pipe sample_engine (sample_world 1)) =
    Ret (Value (mkPayload "Start string  proc by 1, proc by 2, proc by 3," 47)).
Proof.
  split; [vm_compute; discriminate|].
  apply (pipe_test_success sample_engine (sample_world 1)).
  vm_compute. discriminate.
Defined.

(** C5, as stated, fails: [length steps] transitions do not always reach
    [Done]. With no step, the machine is still at [Running 0] after no
    transition; with the two steps of Scenario A, which both succeed, it
    is at [Running 2] after two transitions and needs a third. *)
Lemma machine_bound_counterexample :
  (~ exists n r w',
       (n <= length (@nil (@Function Payload OpErrorType unit)))%nat /\
       run (@nil (@Function Payload OpErrorType unit)) n
           (Running 0 (Value (mkPayload "start" 0)) tt) = Ret (Done r w'))
  /\
  (~ exists n r w',
       (n <= length [@appendText unit "-a"; appendText "-b"])%nat /\
       run [appendText "-a"; appendText "-b"] n
           (Running 0 (Value (mkPayload "start" 0)) tt) = Ret (Done r w')).
Proof.
  split.
  - intros (n & r & w' & Hn & H). cbn [length] in Hn.
    assert (n = 0%nat) by lia. subst n. discriminate H.
  - intros (n & r & w' & Hn & H). cbn [length] in Hn.
    destruct n as [|[|[|n]]]; [discriminate H .. | lia].
Qed.

(** * Further properties of the operators *)

Section OperatorLaws.
Context {T E W : Type}.
Implicit Types (ex r : expected T E) (f g : @Function T E W)
  (fs : list (@Function T E W)) (w : W).
Local Open Scope list_scope.
Local Open Scope nat_scope.


(** The operator obeys the laws of a monad on expecteds: piping a value is
    applying the callable, piping through the callable that wraps its
    argument changes nothing, and [(ex | f) | g] is [ex] piped through the
    callable that runs [f] and pipes its result through [g]. *)
Theorem v3_pipe_monad_laws ex f g (t : T) w :
  pipe (Value t) f w = f t w /\
  pipe ex (fun t' => ret (Value t')) w = Ret (ex, w) /\
  (r <- pipe ex f ;; pipe r g) w = pipe ex (fun t' => r <- f t' ;; pipe r g) w.
Proof.
  split; [reflexivity|]. split.
  - destruct ex; reflexivity.
  - destruct ex as [t'|e]; reflexivity.
Qed.




Lemma calls_from_linked i ex fs w : linked ex (calls_from i ex fs w).
Proof.
  revert i ex w. induction fs as [|f fs IH]; intros i ex w; [exact I|].
  destruct ex as [t|e].
  - cbn [calls_from invocation]. rewrite pipe_value.
    change ([?c] ++ ?l) with (c :: l). cbn [linked call_arg call_result].
    split; [reflexivity|].
    destruct (f t w) as [[r w']|]; [apply IH | reflexivity].
  - rewrite calls_from_unexpected. exact I.
Qed.

(** The payload is handed along the chain: the first callable invoked is
    given the value the initial operand holds, each later one the value
    the one before it returned, and no callable is invoked after one that
    returned an error or faulted. *)
Theorem v3_calls_linked ex fs w : linked ex (calls ex fs w).
Proof. apply calls_from_linked. Qed.

Lemma chain_value_all_invoked i fs : forall ex w t w',
  chain ex fs w = Ret (Value t, w') ->
  length (calls_from i ex fs w) = length fs /\
  forallb succeeded (calls_from i ex fs w) = true.
Proof.
  revert i. induction fs as [|f fs IH]; intros i ex w t w' H.
  - split; reflexivity.
  - destruct ex as [t0|e]; [|rewrite chain_unexpected in H; discriminate H].
    rewrite chain_cons, pipe_value in H.
    cbn [calls_from invocation]. rewrite pipe_value.
    change ([?c] ++ ?l) with (c :: l). cbn [length forallb].
    unfold succeeded at 1. cbn [call_result].
    destruct (f t0 w) as [[r w1]|]; [|discriminate H].
    destruct r as [t1|e1]; [|rewrite chain_unexpected in H; discriminate H].
    destruct (IH (S i) _ _ _ _ H) as [Hlen Hall].
    split; [now rewrite Hlen | exact Hall].
Qed.

(** A chain that returns a value has invoked every one of its callables,
    and every one of them has returned a value: no callable is skipped
    unless an error came up. *)
Theorem v3_value_means_all_ran ex fs w t w' :
  chain ex fs w = Ret (Value t, w') ->
  length (calls ex fs w) = length fs /\
  forallb succeeded (calls ex fs w) = true.
Proof. apply chain_value_all_invoked. Qed.

Lemma chain_error_last_call i fs : forall t w e w',
  chain (Value t) fs w = Ret (Unexpected e, w') ->
  exists cs c,
    calls_from i (Value t) fs w = cs ++ [c] /\
    call_result c = Ret (Unexpected e, w') /\
    forallb succeeded cs = true.
Proof.
  revert i. induction fs as [|f fs IH]; intros i t w e w' H.
  - discriminate H.
  - rewrite chain_cons, pipe_value in H.
    cbn [calls_from invocation]. rewrite pipe_value.
    change ([?c] ++ ?l) with (c :: l).
    destruct (f t w) as [[r w1]|] eqn:Hf; [|discriminate H].
    destruct r as [t1|e1].
    + destruct (IH (S i) _ _ _ _ H) as (cs & c & Hcs & Hc & Hall).
      exists (Call i t (Ret (Value t1, w1)) :: cs), c. rewrite Hcs.
      split; [reflexivity|]. split; [exact Hc | exact Hall].
    + rewrite chain_unexpected in H. injection H as -> ->.
      exists [], (Call i t (Ret (Unexpected e, w'))).
      rewrite calls_from_unexpected. repeat split.
Qed.

(** The first error wins: when a chain started on a value returns an
    error, that error and the final state are those of the last callable
    invoked, and every callable invoked before it returned a value. *)
Theorem v3_error_is_first_failure (t : T) fs w e w' :
  chain (Value t) fs w = Ret (Unexpected e, w') ->
  exists cs c,
    calls (Value t) fs w = cs ++ [c] /\
    call_result c = Ret (Unexpected e, w') /\
    forallb succeeded cs = true.
Proof. apply chain_error_last_call. Qed.

Lemma chain_of_guarded (gs : list (expected T E -> M W (expected T E))) :
  Forall passes_errors gs ->
  forall ex w, chain ex (map invoke_with gs) w = v2.chain ex gs w.
Proof.
  induction 1 as [|g0 gs Hg _ IH]; intros ex w; [reflexivity|].
  cbn [map v2.chain]. unfold bind at 1. unfold v2.pipe.
  change (chain ex (invoke_with g0 :: map invoke_with gs) w)
    with (match pipe ex (invoke_with g0) w with
          | Ret (r, w') => chain r (map invoke_with gs) w'
          | Fault => Fault
          end).
  destruct ex as [t|e].
  - change (pipe (Value t) (invoke_with g0) w) with (g0 (Value t) w).
    destruct (g0 (Value t) w) as [[r w']|]; [apply IH | reflexivity].
  - change (pipe (Unexpected e) (invoke_with g0) w)
      with (@Ret (expected T E * W) (Unexpected e, w)).
    rewrite (Hg e w). apply IH.
Qed.

(** For callables that test their argument and hand an error back
    untouched, the error handling of the operator of [v3] changes nothing:
    the chain equals the chain of the plain operator of [v2], that is
    nested application, on every operand, value or error. *)
Theorem v3_equals_v2_on_guarded
  (gs : list (expected T E -> M W (expected T E))) ex w :
  Forall passes_errors gs ->
  chain ex (map invoke_with gs) w = v2.chain ex gs w.
Proof. intros H. now apply chain_of_guarded. Qed.

End OperatorLaws.


(** * Further properties of the examples *)

Lemma int_add_out_of_range {W : Type} (a b : Z) (w : W) :
  ~ (INT_MIN <= a + b <= INT_MAX) -> @int_add W a b w = Fault.
Proof.
  intros H. unfold int_add.
  destruct (INT_MIN <=? a + b) eqn:Hlo; [|reflexivity].
  destruct (a + b <=? INT_MAX) eqn:Hhi; [|reflexivity].
  exfalso. apply H. split; [now apply Z.leb_le | now apply Z.leb_le].
Qed.

Lemma total_increment_nonneg ks : 0 <= total_increment ks.
Proof.
  induction ks as [|k ks IH]; [cbn; lia|].
  cbn [total_increment fold_right]. fold (total_increment ks).
  destruct k; cbn [step_increment]; lia.
Qed.

Section StepFacts.
Variable mt19937 : Z -> nat -> Z.

(** What a step makes of a value: a fault when the counter would leave
    [int], and otherwise the payload with the suffix appended and the
    counter raised, or, for [Payload_Proc_2] only, one of its two errors;
    one line goes to the console and the random device is left as it was
    but for the values taken. *)
Lemma step_cases k p w :
  (step mt19937 k (Value p) w = Fault /\
   ~ (INT_MIN <= fVal p + step_increment k <= INT_MAX)) \/
  (INT_MIN <= fVal p + step_increment k <= INT_MAX /\
   exists text,
     let w' := mkWorld (cout w ++ text) (random_device w)
                       (step_draws k + drawn w) in
     step mt19937 k (Value p) w =
       Ret (Value (mkPayload (fStr p ++ step_suffix k)
                             (fVal p + step_increment k)), w') \/
     (k = proc_2 /\
      exists e, (e = kOverflow \/ e = kUnderflow) /\
                step mt19937 k (Value p) w = Ret (Unexpected e, w'))).
Proof.
  destruct (Z_le_dec INT_MIN (fVal p + step_increment k)) as [Hlo|Hlo];
    [destruct (Z_le_dec (fVal p + step_increment k) INT_MAX) as [Hhi|Hhi]|].
  - right. split; [now split|].
    destruct k; cbn [step step_increment step_suffix step_draws] in *.
    + rewrite Payload_Proc_1_value, int_add_in_range by now split.
      eexists. left. reflexivity.
    + rewrite Payload_Proc_2_value, int_add_in_range by now split.
      cbv zeta. eexists.
      destruct (negb (_ =? 0)); [left; reflexivity|].
      right. split; [reflexivity|].
      destruct (negb (_ =? 0)); [exists kOverflow | exists kUnderflow];
        (split; [auto | reflexivity]).
    + rewrite Payload_Proc_3_value, int_add_in_range by now split.
      eexists. left. reflexivity.
  - left. split; [|lia].
    destruct k; cbn [step step_increment] in *;
      [rewrite Payload_Proc_1_value | rewrite Payload_Proc_2_value
       | rewrite Payload_Proc_3_value];
      rewrite int_add_out_of_range by lia; reflexivity.
  - left. split; [|lia].
    destruct k; cbn [step step_increment] in *;
      [rewrite Payload_Proc_1_value | rewrite Payload_Proc_2_value
       | rewrite Payload_Proc_3_value];
      rewrite int_add_out_of_range by lia; reflexivity.
Qed.

Lemma steps_of_cons k ks (p : Payload) w :
  chain (Value p) (steps_of mt19937 (k :: ks)) w =
  match step mt19937 k (Value p) w with
  | Ret (r, w') => chain r (steps_of mt19937 ks) w'
  | Fault => Fault
  end.
Proof. reflexivity. Qed.

End StepFacts.

Section Pipelines.
Variable mt19937 : Z -> nat -> Z.

(** Each of the three steps, called on an error, returns that error as it
    is, prints nothing and takes nothing from the random device; so a
    chain of the steps, in any number and order, gives under the plain
    operator of [v2] (nested application) exactly what it gives under the
    operator of [v3], on every operand and in every state. *)
Theorem steps_pass_errors :
  (forall k, passes_errors (step mt19937 k)) /\
  (forall ks ex w,
      chain ex (steps_of mt19937 ks) w =
      v2.chain ex (map (step mt19937) ks) w).
Proof.
  assert (H : forall k, passes_errors (step mt19937 k))
    by (intros [] e w; reflexivity).
  split; [exact H|]. intros ks ex w.
  unfold steps_of. rewrite <- (map_map (step mt19937) invoke_with).
  apply chain_of_guarded. apply Forall_forall. intros g Hg.
  apply in_map_iff in Hg. destruct Hg as [k [<- _]]. apply H.
Qed.

(** The accounts of a chain of steps that returns a value: the counter has
    grown by the sum of the increments of the steps, the text by their
    suffixes in order, the random device has been asked once for every
    [Payload_Proc_2] in the chain and is otherwise as it was, and the
    console has only been appended to. *)
Theorem steps_value_accounts ks : forall p w p' w',
  chain (Value p) (steps_of mt19937 ks) w = Ret (Value p', w') ->
  fVal p' = fVal p + total_increment ks /\
  fStr p' = fStr p ++ all_suffixes ks /\
  drawn w' = (total_draws ks + drawn w)%nat /\
  random_device w' = random_device w /\
  exists text, cout w' = cout w ++ text.
Proof.
  induction ks as [|k ks IH]; intros p w p' w' H.
  - injection H as <- <-. cbn. rewrite string_app_nil_r, Z.add_0_r.
    repeat split. exists "". now rewrite string_app_nil_r.
  - rewrite steps_of_cons in H.
    destruct (step_cases mt19937 k p w)
      as [[Hf _] | [_ [text [Hv | [_ [e [_ He]]]]]]]; cbv zeta in *.
    + rewrite Hf in H. discriminate H.
    + rewrite Hv in H. apply IH in H.
      destruct H as (HfVal & HfStr & Hdrawn & Hrd & text' & Hcout).
      cbn [fVal fStr cout random_device drawn] in *.
      cbn [total_increment all_suffixes total_draws fold_right].
      fold (total_increment ks) (all_suffixes ks) (total_draws ks).
      rewrite HfVal, HfStr, Hdrawn, Hrd, Hcout, !string_app_assoc.
      repeat split; [lia | lia |]. now exists (text ++ text').
    + rewrite He, chain_unexpected in H. discriminate H.
Qed.

(** Only [Payload_Proc_2] brings errors in: a chain of steps started on a
    value returns an error only if [Payload_Proc_2] is among the steps;
    the error is then [kOverflow] or [kUnderflow] and the random device
    has been asked. *)
Theorem steps_error_origin ks : forall p w e w',
  chain (Value p) (steps_of mt19937 ks) w = Ret (Unexpected e, w') ->
  In proc_2 ks /\ (e = kOverflow \/ e = kUnderflow) /\
  (drawn w < drawn w')%nat.
Proof.
  induction ks as [|k ks IH]; intros p w e w' H; [discriminate H|].
  rewrite steps_of_cons in H.
  destruct (step_cases mt19937 k p w)
    as [[Hf _] | [_ [text [Hv | [Hk [e0 [He0 He]]]]]]]; cbv zeta in *.
  - rewrite Hf in H. discriminate H.
  - rewrite Hv in H. apply IH in H. destruct H as (Hin & He & Hdrawn).
    cbn [drawn] in Hdrawn. split; [now right|]. split; [exact He | lia].
  - rewrite He, chain_unexpected in H. injection H as <- <-. subst k.
    cbn [drawn step_draws]. split; [now left|]. split; [exact He0 | lia].
Qed.

(** A chain of steps started on a payload whose counter is an [int] and
    stays below [INT_MAX] after every increment of the chain returns, for
    every engine and every state: no step overflows. *)
Theorem steps_in_range_return ks : forall p w,
  INT_MIN <= fVal p ->
  fVal p + total_increment ks <= INT_MAX ->
  exists r w', chain (Value p) (steps_of mt19937 ks) w = Ret (r, w').
Proof.
  induction ks as [|k ks IH]; intros p w Hlo Hhi.
  - now exists (Value p), w.
  - rewrite steps_of_cons.
    cbn [total_increment fold_right] in Hhi. fold (total_increment ks) in Hhi.
    pose proof (total_increment_nonneg ks) as Hnn.
    assert (Hk : 1 <= step_increment k) by (destruct k; cbn; lia).
    destruct (step_cases mt19937 k p w)
      as [[_ Hout] | [_ [text [Hv | [_ [e [_ He]]]]]]]; cbv zeta in *.
    + exfalso. apply Hout. lia.
    + rewrite Hv. apply IH; cbn [fVal]; lia.
    + rewrite He, chain_unexpected. now do 2 eexists.
Qed.

(** A step faults on a value exactly when its increment takes the counter
    past [INT_MAX]: [Payload_Proc_1] and [Payload_Proc_2] at [INT_MAX],
    [Payload_Proc_3] from [INT_MAX - 2] on. *)
Theorem step_overflow_edge k p w :
  INT_MIN <= fVal p <= INT_MAX ->
  (step mt19937 k (Value p) w = Fault <->
   INT_MAX - step_increment k < fVal p).
Proof.
  intros [Hlo Hhi].
  assert (Hk : 1 <= step_increment k) by (destruct k; cbn; lia).
  destruct (step_cases mt19937 k p w)
    as [[Hf Hout] | [Hin [text [Hv | [_ [e [_ He]]]]]]]; cbv zeta in *.
  - split; [intros _; lia | intros _; exact Hf].
  - rewrite Hv. split; [discriminate | lia].
  - rewrite He. split; [discriminate | lia].
Qed.

(** What [Payload_PipeTest] does, in full: it never faults, takes one
    value from the random device, and appends to the console the lines of
    [Payload_Proc_1] and [Payload_Proc_2] followed, by the first two
    values of the engine, by the line of [Payload_Proc_3] and the success
    message, or by the message of [kOverflow], or by that of
    [kUnderflow]. *)
Theorem Payload_PipeTest_output w :
  let rand_gen := mt19937 (random_device w (drawn w) mod 2 ^ 32) in
  Payload_PipeTest mt19937 w =
  Ret (tt,
       mkWorld
         (cout w
          ++ "I'm in Payload_Proc_1, s = Start string  proc by 1," ++ endl
          ++ "I'm in Payload_Proc_2, s = Start string  proc by 1, proc by 2,"
          ++ endl
          ++ (if negb (rand_gen 0%nat mod 2 =? 0) then
                "I'm in Payload_Proc_3, s = "
                ++ "Start string  proc by 1, proc by 2, proc by 3," ++ endl
                ++ "Success! Result of the pipe: fStr == "
                ++ "Start string  proc by 1, proc by 2, proc by 3,"
                ++ " fVal == 47"
              else if negb (rand_gen 1%nat mod 2 =? 0) then
                "Error: OpErrorType::kOverflow" ++ endl
              else "Error: OpErrorType::kUnderflow" ++ endl))
         (random_device w) (S (drawn w))).
Proof.
  cbv zeta. pose proof (test_pipe_run mt19937 w) as Hrun. cbv zeta in Hrun.
  unfold Payload_PipeTest, bind. rewrite Hrun.
  destruct (negb (_ =? 0)).
  - cbn [has_value]. unfold arrow, deref, ret, print.
    cbn [fStr fVal cout random_device drawn].
    rewrite !string_app_assoc. reflexivity.
  - cbn [has_value]. unfold print. cbn [cout random_device drawn].
    destruct (negb (_ =? 0)); rewrite !string_app_assoc; reflexivity.
Qed.

End Pipelines.

(** The pipeline of the basic example on any string: the three functions
    append their suffixes in order and print one line each, showing the
    string so far; the operator of [v1], the operator of [v2], and the
    function object in place of [StringProc_3] all give the same. *)
Theorem string_pipeline (s : string) (w : World) :
  let out := s ++ " proc by 1, proc by 2, proc by 3," in
  let w' :=
    mkWorld (cout w
             ++ "I'm in StringProc_1, s = " ++ s ++ " proc by 1," ++ endl
             ++ "I'm in StringProc_2, s = " ++ s ++ " proc by 1, proc by 2,"
             ++ endl
             ++ "I'm in StringProc_3, s = " ++ out ++ endl)
            (random_device w) (drawn w) in
  (r1 <- v1.pipe s StringProc_1 ;;
   r2 <- v1.pipe r1 StringProc_2 ;;
   v1.pipe r2 StringProc_3) w = Ret (out, w') /\
  v2.chain s [StringProc_1; StringProc_2; StringProc_3] w = Ret (out, w') /\
  v2.chain s [StringProc_1; StringProc_2; v2.StringProc_funobj] w
  = Ret (out, w').
Proof.
  cbv zeta. repeat split;
    cbv [v1.pipe v2.chain v2.pipe bind ret print StringProc_1 StringProc_2
         StringProc_3 v2.StringProc_funobj cout random_device drawn];
    rewrite !string_app_assoc; reflexivity.
Qed.

(** The three test drivers of the basic example print the same text,
    whatever is on the console before: the three lines of the functions
    and then the final string, with no line end after it. *)
Theorem simple_pipe_tests_agree (w : World) :
  v1.SimplePipeTest w =
    Ret (tt,
         mkWorld
           (cout w
            ++ "I'm in StringProc_1, s = Start string  proc by 1," ++ endl
            ++ "I'm in StringProc_2, s = Start string  proc by 1, proc by 2,"
            ++ endl
            ++ "I'm in StringProc_3, s = "
            ++ "Start string  proc by 1, proc by 2, proc by 3," ++ endl
            ++ "Start string  proc by 1, proc by 2, proc by 3,")
           (random_device w) (drawn w)) /\
  v2.SimplePipeTest w = v1.SimplePipeTest w /\
  v2.SimplePipeTest_2 w = v1.SimplePipeTest w.
Proof.
  repeat split;
    cbv [v1.SimplePipeTest v2.SimplePipeTest v2.SimplePipeTest_2 v1.pipe
         v2.chain v2.pipe bind ret print StringProc_1 StringProc_2
         StringProc_3 v2.StringProc_funobj cout random_device drawn];
    rewrite ?string_app_assoc; reflexivity.
Qed.

(** ** Concrete runs of the further properties *)

Lemma v3_value_means_all_ran_witness :
  chain (Value (mkPayload "start" 0)) [appendText "-a"; appendText "-b"] tt
  = Ret (Value (mkPayload "start-a-b" 0), tt) /\
  (length (calls (Value (mkPayload "start" 0))
                 [appendText "-a"; appendText "-b"] tt) = 2%nat /\
   forallb succeeded
           (calls (Value (mkPayload "start" 0))
                  [appendText "-a"; appendText "-b"] tt) = true).
Proof.
  split; [reflexivity|].
  apply (v3_value_means_all_ran (Value (mkPayload "start" 0))
           [appendText "-a"; appendText "-b"] tt
           (t:=mkPayload "start-a-b" 0) (w':=tt)).
  reflexivity.
Defined.

Lemma v3_error_is_first_failure_witness :
  chain (Value (mkPayload "start" 0))
        [appendText "-a"; alwaysFail kOverflow; flagged (appendText "-c")]
        false
  = Ret (Unexpected kOverflow, false) /\
  exists cs c,
    calls (Value (mkPayload "start" 0))
          [appendText "-a"; alwaysFail kOverflow; flagged (appendText "-c")]
          false = (cs ++ [c])%list /\
    call_result c = Ret (Unexpected kOverflow, false) /\
    forallb succeeded cs = true.
Proof.
  split; [reflexivity|].
  apply (v3_error_is_first_failure (mkPayload "start" 0)
           [appendText "-a"; alwaysFail kOverflow; flagged (appendText "-c")]
           false).
  reflexivity.
Defined.

Lemma v3_equals_v2_on_guarded_witness :
  Forall passes_errors [Payload_Proc_1; Payload_Proc_3] /\
  chain (Unexpected kInvalidInput)
        (map invoke_with [Payload_Proc_1; Payload_Proc_3]) (sample_world 1)
  = v2.chain (Unexpected kInvalidInput) [Payload_Proc_1; Payload_Proc_3]
             (sample_world 1).
Proof.
  assert (H : Forall (@passes_errors Payload OpErrorType World)
                     [Payload_Proc_1; Payload_Proc_3])
    by (repeat constructor; intros e w; reflexivity).
  split; [exact H|].
  apply (v3_equals_v2_on_guarded (Unexpected kInvalidInput) (sample_world 1) H).
Defined.

Lemma steps_value_accounts_witness :
  let w' :=
    mkWorld ("I'm in Payload_Proc_1, s = start proc by 1," ++ endl
             ++ "I'm in Payload_Proc_3, s = start proc by 1, proc by 3,"
             ++ endl)
            (random_device (sample_world 1)) 0 in
  let p' := mkPayload "start proc by 1, proc by 3," 4 in
  chain (Value (mkPayload "start" 0)) (steps_of sample_engine [proc_1; proc_3])
        (sample_world 1) = Ret (Value p', w') /\
  (fVal p' = 0 + total_increment [proc_1; proc_3] /\
   fStr p' = "start" ++ all_suffixes [proc_1; proc_3] /\
   drawn w' = (total_draws [proc_1; proc_3] + 0)%nat /\
   random_device w' = random_device (sample_world 1) /\
   exists text, cout w' = "" ++ text).
Proof.
  cbv zeta. split; [vm_compute; reflexivity|].
  apply (steps_value_accounts sample_engine [proc_1; proc_3]
           (mkPayload "start" 0) (sample_world 1)).
  vm_compute. reflexivity.
Defined.

Lemma steps_error_origin_witness :
  let w' :=
    mkWorld ("I'm in Payload_Proc_2, s = start proc by 2," ++ endl)
            (random_device (sample_world 1)) 1 in
  chain (Value (mkPayload "start" 0)) (steps_of (fun _ _ => 0) [proc_2])
        (sample_world 1) = Ret (Unexpected kUnderflow, w') /\
  (In proc_2 [proc_2] /\
   (kUnderflow = kOverflow \/ kUnderflow = kUnderflow) /\
   (drawn (sample_world 1) < drawn w')%nat).
Proof.
  cbv zeta. split; [vm_compute; reflexivity|].
  apply (steps_error_origin (fun _ _ => 0) [proc_2]
           (mkPayload "start" 0) (sample_world 1)).
  vm_compute. reflexivity.
Defined.

Lemma steps_in_range_return_witness :
  (INT_MIN <= 42 /\ 42 + total_increment [proc_1; proc_2; proc_3] <= INT_MAX) /\
  exists r w',
    chain (Value (mkPayload "Start string " 42))
          (steps_of sample_engine [proc_1; proc_2; proc_3]) (sample_world 1)
    = Ret (r, w').
Proof.
  assert (Hlo : INT_MIN <= 42) by (vm_compute; discriminate).
  assert (Hhi : 42 + total_increment [proc_1; proc_2; proc_3] <= INT_MAX)
    by (vm_compute; discriminate).
  split; [now split|].
  apply (steps_in_range_return sample_engine [proc_1; proc_2; proc_3]
           (mkPayload "Start string " 42) (sample_world 1) Hlo Hhi).
Defined.

Lemma step_overflow_edge_witness :
  INT_MIN <= INT_MAX - 2 <= INT_MAX /\
  (step sample_engine proc_3 (Value (mkPayload "start" (INT_MAX - 2)))
        (sample_world 1) = Fault <->
   INT_MAX - step_increment proc_3 < INT_MAX - 2).
Proof.
  assert (H : INT_MIN <= INT_MAX - 2 <= INT_MAX)
    by (split; vm_compute; discriminate).
  split; [exact H|].
  apply (step_overflow_edge sample_engine proc_3
           (mkPayload "start" (INT_MAX - 2)) (sample_world 1) H).
Defined.
